(** * Fetch-and-store task: [lambda_handler] of main.py

    The handler posts a fixed form to the listings endpoint, reads the
    whole answer and puts the bytes under one fixed S3 key.  The code is
    embedded in a small reader/state/exception monad: the reader part is
    what the outside world answers during one invocation, the state part
    is the bucket store and the chronological list of what the handler did.

    Python [str] values are held as Rocq strings of their UTF-8 bytes, so
    [.encode("utf-8")] exposes the bytes of the string. *)

From Stdlib Require Import Strings.Ascii Strings.Byte.
From stdpp Require Import base option list strings gmap fin_maps.

Open Scope string_scope.
Open Scope list_scope.
Open Scope Z_scope.

(** ** Python values that cross the handler's interface *)

Definition bytes := list byte.

#[warning="-register-all"]
Inductive pyval :=
  | PNone
  | PBool (b : bool)
  | PInt (n : Z)
  | PStr (s : string)
  | PList (l : list pyval)
  | PDict (items : list (string * pyval)).

Inductive exn :=
  | URLError (reason : string)
  | HTTPError (code : Z) (msg : string)
  | IncompleteRead (partial : bytes)
  | BotoCoreError (msg : string)
  | ClientError (code : string).

(** ** urllib.parse *)

Module urllib_parse.

(** [_ALWAYS_SAFE]: ASCII letters, digits and [_.-~]. *)
Definition always_safe (c : ascii) : bool :=
  let n := N_of_ascii c in
  ((65 <=? n) && (n <=? 90) || (97 <=? n) && (n <=? 122) ||
   (48 <=? n) && (n <=? 57) ||
   (n =? 95) || (n =? 46) || (n =? 45) || (n =? 126))%N.

Definition hex_digit (n : N) : ascii :=
  if (n <? 10)%N then ascii_of_N (48 + n) else ascii_of_N (55 + n).

(** ['%{:02X}'.format(char)] *)
Definition percent (c : ascii) : string :=
  let n := N_of_ascii c in
  String "%" (String (hex_digit (n / 16)) (String (hex_digit (n mod 16)) "")).

(** [quote_plus] with the default [safe='']: unreserved bytes stay, a
    space becomes [+], every other byte of the UTF-8 form is escaped. *)
Fixpoint quote_plus (s : string) : string :=
  match s with
  | EmptyString => EmptyString
  | String c rest =>
      (if always_safe c then String c ""
       else if Ascii.eqb c " " then "+"
       else percent c) +:+ quote_plus rest
  end.

(** ['&'.join(l)] *)
Fixpoint join (sep : string) (l : list string) : string :=
  match l with
  | [] => ""
  | [x] => x
  | x :: rest => x +:+ sep +:+ join sep rest
  end.

(** [urlencode(query)] for a dict of [str] to [str], visited in insertion
    order. *)
Definition urlencode (query : list (string * string)) : string :=
  join "&" (map (λ kv, quote_plus kv.1 +:+ "=" +:+ quote_plus kv.2) query).

End urllib_parse.

(** [s.encode("utf-8")] *)
Definition encode_utf8 (s : string) : bytes := String.list_byte_of_string s.

(** ** urllib.request.Request *)

Definition upper_ascii (c : ascii) : ascii :=
  let n := N_of_ascii c in
  if ((97 <=? n) && (n <=? 122))%N then ascii_of_N (n - 32) else c.

Definition lower_ascii (c : ascii) : ascii :=
  let n := N_of_ascii c in
  if ((65 <=? n) && (n <=? 90))%N then ascii_of_N (n + 32) else c.

Fixpoint lower (s : string) : string :=
  match s with
  | EmptyString => EmptyString
  | String c rest => String (lower_ascii c) (lower rest)
  end.

(** [str.capitalize()] *)
Definition capitalize (s : string) : string :=
  match s with
  | EmptyString => EmptyString
  | String c rest => String (upper_ascii c) (lower rest)
  end.

Record Request := mkRequest {
  full_url : string;
  data : option bytes;
  headers : gmap string string
}.

(** [Request(url, data=data)] *)
Definition Request_new (url : string) (data : option bytes) : Request :=
  {| full_url := url; data := data; headers := ∅ |}.

(** [req.add_header(key, val)]: [self.headers[key.capitalize()] = val] *)
Definition add_header (key val : string) (req : Request) : Request :=
  {| full_url := full_url req;
     data := data req;
     headers := <[capitalize key := val]> (headers req) |}.

(** [req.get_method()] when no explicit method was given *)
Definition get_method (req : Request) : string :=
  match data req with
  | Some _ => "POST"
  | None => "GET"
  end.

(** Header field names are case-insensitive on the wire: the request
    carries [name: value] when some stored field whose name equals [name]
    up to case has that value. *)
Definition carries_header (req : Request) (name value : string) : Prop :=
  ∃ k, headers req !! k = Some value ∧ lower k = lower name.

(** ** The outside world *)

(** What [response.read()] does on the response the endpoint gave. *)
Inductive Response :=
  | ReadsAll (body : bytes)
  | ReadFails (e : exn).

Record PutObjectArgs := mkPut {
  Bucket : string;
  Key : string;
  Body : bytes;
  ContentType : string
}.

Record S3Object := mkObject {
  obj_body : bytes;
  obj_content_type : string
}.

(** The answers of the network and of S3 during one invocation.  A
    [put_object] call that raises tells the caller nothing about the bucket:
    S3 may have refused the object, or stored it and lost the answer on the
    way back; [s3_put_applied] says which, for a call that raised. *)
Record Env := mkEnv {
  net_urlopen : Request → exn + Response;
  boto3_client_error : string → option exn;
  s3_put_error : PutObjectArgs → option exn;
  s3_put_applied : PutObjectArgs → bool
}.

Inductive effect :=
  | EvUrlopen (req : Request)
  | EvRead (body : bytes)
  | EvClose
  | EvPutObject (args : PutObjectArgs).

Record Sys := mkSys {
  storage : gmap (string * string) S3Object;
  trace : list effect
}.

Definition emit (ev : effect) (s : Sys) : Sys :=
  {| storage := storage s; trace := trace s ++ [ev] |}.

Definition store (args : PutObjectArgs) (s : Sys) : Sys :=
  {| storage :=
       <[(Bucket args, Key args) :=
           {| obj_body := Body args; obj_content_type := ContentType args |}]>
         (storage s);
     trace := trace s |}.

(** ** The monad of handler code *)

Inductive outcome (A : Type) :=
  | Returned (a : A)
  | Raised (e : exn).
Arguments Returned {A} a.
Arguments Raised {A} e.

Definition Py (A : Type) : Type := Env → Sys → outcome A * Sys.

#[global] Instance Py_ret : MRet Py := λ A a _ s, (Returned a, s).

#[global] Instance Py_bind : MBind Py := λ A B k m env s,
  match m env s with
  | (Returned a, s') => k a env s'
  | (Raised e, s') => (Raised e, s')
  end.

Definition raise {A} (e : exn) : Py A := λ _ s, (Raised e, s).

(** [with cm as r: body]: [r.close()] runs on both exits and the exception,
    if any, goes on. *)
Definition with_ {R A} (cm : Py R) (close : R → Py ()) (body : R → Py A) : Py A :=
  λ env s,
    match cm env s with
    | (Raised e, s') => (Raised e, s')
    | (Returned r, s') =>
        match body r env s' with
        | (Returned a, s'') =>
            match close r env s'' with
            | (Returned _, s3) => (Returned a, s3)
            | (Raised e, s3) => (Raised e, s3)
            end
        | (Raised e, s'') =>
            match close r env s'' with
            | (Returned _, s3) => (Raised e, s3)
            | (Raised e', s3) => (Raised e', s3)
            end
        end
    end.

(** [urllib.request.urlopen(req)]: one call is one exchange as the handler
    sees it; it raises (URLError on a transport failure, HTTPError on a
    status that is not a success) or hands back the response.  What the
    library does inside the call is not unfolded. *)
Definition urlopen (req : Request) : Py Response := λ env s,
  match net_urlopen env req with
  | inl e => (Raised e, emit (EvUrlopen req) s)
  | inr response => (Returned response, emit (EvUrlopen req) s)
  end.

(** [response.read()] *)
Definition read (response : Response) : Py bytes := λ _ s,
  match response with
  | ReadsAll body => (Returned body, emit (EvRead body) s)
  | ReadFails e => (Raised e, s)
  end.

(** [response.close()], called by [__exit__] *)
Definition close (response : Response) : Py () := λ _ s,
  (Returned (), emit EvClose s).

Inductive S3Client := S3.

(** [boto3.client(service)] *)
Definition boto3_client (service : string) : Py S3Client := λ env s,
  match boto3_client_error env service with
  | Some e => (Raised e, s)
  | None => (Returned S3, s)
  end.

(** [s3.put_object(Bucket=, Key=, Body=, ContentType=)]: the object at
    (Bucket, Key) is replaced when the call returns; when it raises, the
    object is replaced or not as S3 had it. *)
Definition put_object (_ : S3Client) (bucket key : string) (body : bytes)
    (content_type : string) : Py () := λ env s,
  let args := mkPut bucket key body content_type in
  match s3_put_error env args with
  | Some e =>
      (Raised e,
       if s3_put_applied env args then store args (emit (EvPutObject args) s)
       else emit (EvPutObject args) s)
  | None => (Returned (), store args (emit (EvPutObject args) s))
  end.

(** ** main.py *)

Definition lambda_handler (event context : pyval) : Py (gmap string pyval) :=
  let url := "https://www.autocaris.cz/downloadcontent/cars.php" in
  let post_data := [("name", ""); ("password", ""); ("id", "")] in
  let data_encoded := encode_utf8 (urllib_parse.urlencode post_data) in
  let req := Request_new url (Some data_encoded) in
  let req := add_header "Content-Type" "application/x-www-form-urlencoded" req in
  xml_data ← with_ (urlopen req) close (λ response, read response);
  s3 ← boto3_client "s3";
  let bucket_name := "autocaris-data" in
  let s3_key := "inzeraty/inzeraty_usti.xml" in
  _ ← put_object s3 bucket_name s3_key xml_data "application/xml";
  mret {[ "statusCode" := PInt 200;
          "body" := PStr ("XML úspěšně uložen do s3://" +:+ bucket_name +:+ "/" +:+ s3_key) ]}.

(** One invocation by the runtime. *)
Definition invoke (env : Env) (event context : pyval) (s : Sys)
    : outcome (gmap string pyval) * Sys :=
  lambda_handler event context env s.

(** ** Reading a run *)

Definition returned {A} (o : outcome A) : option A :=
  match o with
  | Returned a => Some a
  | Raised _ => None
  end.

(** The events a run added to the trace it started from. *)
Definition new_events (before after : Sys) : list effect :=
  drop (length (trace before)) (trace after).

(** The outbound HTTP requests among some events, in order. *)
Fixpoint http_requests (evs : list effect) : list Request :=
  match evs with
  | [] => []
  | EvUrlopen req :: rest => req :: http_requests rest
  | _ :: rest => http_requests rest
  end.

(** The storage writes among some events, in order. *)
Fixpoint storage_writes (evs : list effect) : list PutObjectArgs :=
  match evs with
  | [] => []
  | EvPutObject args :: rest => args :: storage_writes rest
  | _ :: rest => storage_writes rest
  end.

(** Python's [needle in hay] on strings. *)
Fixpoint contains (hay needle : string) : bool :=
  String.prefix needle hay ||
  match hay with
  | EmptyString => false
  | String _ rest => contains rest needle
  end.

(** Worlds used to run the handler on concrete inputs. *)
Definition env_ok (B : bytes) : Env :=
  {| net_urlopen := λ _, inr (ReadsAll B);
     boto3_client_error := λ _, None;
     s3_put_error := λ _, None;
     s3_put_applied := λ _, false |}.

Definition env_upstream_down (e : exn) : Env :=
  {| net_urlopen := λ _, inl e;
     boto3_client_error := λ _, None;
     s3_put_error := λ _, None;
     s3_put_applied := λ _, false |}.

Definition env_put_denied (B : bytes) (e : exn) : Env :=
  {| net_urlopen := λ _, inr (ReadsAll B);
     boto3_client_error := λ _, None;
     s3_put_error := λ _, Some e;
     s3_put_applied := λ _, false |}.

Definition env_put_lost (B : bytes) (e : exn) : Env :=
  {| net_urlopen := λ _, inr (ReadsAll B);
     boto3_client_error := λ _, None;
     s3_put_error := λ _, Some e;
     s3_put_applied := λ _, true |}.

Definition sys0 : Sys := {| storage := ∅; trace := [] |}.

Definition feed1 : bytes := ["<"%byte; "a"%byte; "/"%byte; ">"%byte].
Definition feed2 : bytes := ["<"%byte; "b"%byte; "/"%byte; ">"%byte; x0a%byte].

(** ** What the handler computes before it talks to anyone *)

(** The request object passed to [urlopen]. *)
Definition sent_request : Request :=
  add_header "Content-Type" "application/x-www-form-urlencoded"
    (Request_new "https://www.autocaris.cz/downloadcontent/cars.php"
       (Some (encode_utf8
                (urllib_parse.urlencode [("name", ""); ("password", ""); ("id", "")])))).

(** The keyword arguments of [put_object] for a fetched body. *)
Definition sent_put (body : bytes) : PutObjectArgs :=
  mkPut "autocaris-data" "inzeraty/inzeraty_usti.xml" body "application/xml".

(** [(bucket_name, s3_key)] *)
Definition target : string * string :=
  ("autocaris-data", "inzeraty/inzeraty_usti.xml").

(** The returned dict. *)
Definition success_result : gmap string pyval :=
  {[ "statusCode" := PInt 200;
     "body" := PStr ("XML úspěšně uložen do s3://" +:+ "autocaris-data" +:+ "/"
                     +:+ "inzeraty/inzeraty_usti.xml") ]}.

(** The state once the response was read and closed. *)
Definition fetched (s : Sys) (B : bytes) : Sys :=
  emit EvClose (emit (EvRead B) (emit (EvUrlopen sent_request) s)).

(** The world of a successful invocation whose upstream body is B. *)
Definition answers (env : Env) (B : bytes) : Prop :=
  net_urlopen env sent_request = inr (ReadsAll B) ∧
  boto3_client_error env "s3" = None ∧
  s3_put_error env (sent_put B) = None.

(** ** Further readings of a run *)

(** How many times a response was closed among some events. *)
Fixpoint closes (evs : list effect) : nat :=
  match evs with
  | [] => 0%nat
  | EvClose :: rest => S (closes rest)
  | _ :: rest => closes rest
  end.

(** The body a world lets the handler store, if it lets it store one. *)
Definition success_body (env : Env) : option bytes :=
  match net_urlopen env sent_request with
  | inr (ReadsAll B) =>
      match boto3_client_error env "s3", s3_put_error env (sent_put B) with
      | None, None => Some B
      | _, _ => None
      end
  | _ => None
  end.

(** The body S3 took into the bucket during a run in this world, if it
    took one: the write returned, or it raised after S3 had stored the
    object. *)
Definition stored_body (env : Env) : option bytes :=
  match net_urlopen env sent_request with
  | inr (ReadsAll B) =>
      match boto3_client_error env "s3" with
      | Some _ => None
      | None =>
          match s3_put_error env (sent_put B) with
          | None => Some B
          | Some _ => if s3_put_applied env (sent_put B) then Some B else None
          end
      end
  | _ => None
  end.

(** A schedule: the runtime invokes the handler once per entry, each time
    in the world and with the event and context of that entry. *)
Fixpoint invoke_seq (calls : list (Env * pyval * pyval)) (s : Sys) : Sys :=
  match calls with
  | [] => s
  | (env, event, context) :: rest => invoke_seq rest (invoke env event context s).2
  end.

(** The body S3 took from the last entry of a schedule whose write it
    applied. *)
Fixpoint last_stored (calls : list (Env * pyval * pyval)) : option bytes :=
  match calls with
  | [] => None
  | (env, _, _) :: rest =>
      match last_stored rest with
      | Some B => Some B
      | None => stored_body env
      end
  end.

(** ** Further readings of strings *)

Fixpoint all_chars (P : ascii → bool) (s : string) : bool :=
  match s with
  | EmptyString => true
  | String c rest => P c && all_chars P rest
  end.

(** Bytes below 128: the strings on which [lower] and [capitalize] are
    Python's. *)
Definition is_ascii (c : ascii) : bool := (N_of_ascii c <? 128)%N.

(** The characters a form-encoded body is made of. *)
Definition form_char (c : ascii) : bool :=
  urllib_parse.always_safe c ||
  Ascii.eqb c "+" || Ascii.eqb c "%" || Ascii.eqb c "=" || Ascii.eqb c "&".

(** The characters [quote_plus] produces. *)
Definition quoted_char (c : ascii) : bool :=
  urllib_parse.always_safe c || Ascii.eqb c "+" || Ascii.eqb c "%".

(** The value of an upper-case hexadecimal digit. *)
Definition hex_value (c : ascii) : N :=
  let n := N_of_ascii c in
  if (n <? 58)%N then (n - 48)%N else (n - 55)%N.

(** The byte an escape [%XX] stands for. *)
Definition percent_byte (s : string) : option ascii :=
  match s with
  | String _ (String h (String l EmptyString)) =>
      Some (ascii_of_N (16 * hex_value h + hex_value l))
  | _ => None
  end.

(** A string in which the character [x] does not occur. *)
Definition lacks (x : ascii) (s : string) : Prop :=
  all_chars (λ c, negb (Ascii.eqb c x)) s = true.

(** One [key=value] item of the body. *)
Definition form_item (kv : string * string) : string :=
  urllib_parse.quote_plus kv.1 +:+ "=" +:+ urllib_parse.quote_plus kv.2.

(** ** The handler, path by path *)

Section Paths.

Variables (env : Env) (event context : pyval) (s : Sys).

(** Every run of the handler is one of five paths, chosen by the answers
    of the world alone; on the path where the write raises, the world also
    says whether the bucket took the object. *)
Lemma invoke_paths :
  invoke env event context s =
  match net_urlopen env sent_request with
  | inl e => (Raised e, emit (EvUrlopen sent_request) s)
  | inr (ReadFails e) => (Raised e, emit EvClose (emit (EvUrlopen sent_request) s))
  | inr (ReadsAll B) =>
      match boto3_client_error env "s3" with
      | Some e => (Raised e, fetched s B)
      | None =>
          match s3_put_error env (sent_put B) with
          | Some e =>
              (Raised e,
               if s3_put_applied env (sent_put B)
               then store (sent_put B) (emit (EvPutObject (sent_put B)) (fetched s B))
               else emit (EvPutObject (sent_put B)) (fetched s B))
          | None =>
              (Returned success_result,
               store (sent_put B) (emit (EvPutObject (sent_put B)) (fetched s B)))
          end
      end
  end.
Proof.
  unfold invoke, lambda_handler, mbind, Py_bind, with_, urlopen, mret, Py_ret.
  fold sent_request.
  destruct (net_urlopen env sent_request) as [e | [B | e]]; simpl; try reflexivity.
  unfold boto3_client, put_object. fold (sent_put B).
  destruct (boto3_client_error env "s3"); [reflexivity |].
  destruct (s3_put_error env (sent_put B)); reflexivity.
Qed.

End Paths.

(** ** Tactics for runs *)

(** Split a run into its paths, keeping what the world answered. *)
Ltac paths :=
  rewrite invoke_paths;
  let Hnet := fresh "Hnet" in
  let Hcl := fresh "Hclient" in
  let Hput := fresh "Hput" in
  destruct (net_urlopen _ sent_request) as [? | [? | ?]] eqn:Hnet;
  [ | destruct (boto3_client_error _ "s3") eqn:Hcl;
      [ | destruct (s3_put_error _ (sent_put _)) eqn:Hput;
          [ destruct (s3_put_applied _ (sent_put _)) | ] ]
    | ].

(** Compute the events a path added. *)
Ltac events :=
  unfold new_events; cbn [trace storage emit store fetched fst snd];
  rewrite <- ?app_assoc; rewrite ?drop_app_length; cbn [app].

(** ** Strings *)

Lemma append_cons (c : ascii) (s t : string) :
  String c s +:+ t = String c (s +:+ t).
Proof. reflexivity. Qed.

Lemma prefix_spec (p s : string) :
  String.prefix p s = true ↔ ∃ post, s = p +:+ post.
Proof.
  revert s. induction p as [| c p IH]; intros s.
  - split; [intros _; by exists s | by destruct s].
  - destruct s as [| d s]; simpl.
    { split; [done | intros [post Hp]; discriminate Hp]. }
    setoid_rewrite append_cons.
    destruct (Ascii.ascii_dec c d) as [-> | Hne].
    + rewrite IH. split; intros [post Hp]; exists post; congruence.
    + split; [done | intros [post Hp]; congruence].
Qed.

(** [contains] decides Python's substring test. *)
Lemma contains_spec (hay needle : string) :
  contains hay needle = true ↔ ∃ pre post, hay = pre +:+ needle +:+ post.
Proof.
  induction hay as [| c hay IH].
  - cbn [contains]. rewrite orb_false_r, prefix_spec. split.
    + intros [post Hp]. by exists "", post.
    + intros ([| ? ?] & post & Hp); [by exists post | discriminate Hp].
  - cbn [contains]. rewrite orb_true_iff, prefix_spec, IH. split.
    + intros [[post Hp] | (pre & post & Hp)].
      * by exists "", post.
      * exists (String c pre), post. rewrite append_cons. by rewrite Hp.
    + intros ([| d pre] & post & Hp).
      * left. by exists post.
      * right. exists pre, post. rewrite append_cons in Hp. congruence.
Qed.

(** ** The library functions on concrete inputs *)

Example urlencode_post_data :
  urllib_parse.urlencode [("name", ""); ("password", ""); ("id", "")]
  = "name=&password=&id=".
Proof. reflexivity. Qed.

Example urlencode_escapes :
  urllib_parse.urlencode [("na me", "a/b"); ("p", "~x")] = "na+me=a%2Fb&p=~x".
Proof. reflexivity. Qed.

Example capitalize_content_type : capitalize "Content-Type" = "Content-type".
Proof. reflexivity. Qed.

Example run_ok_trace :
  trace (invoke (env_ok feed1) PNone PNone sys0).2
  = [EvUrlopen sent_request; EvRead feed1; EvClose; EvPutObject (sent_put feed1)].
Proof. reflexivity. Qed.

Example run_upstream_down_trace :
  invoke (env_upstream_down (HTTPError 503 "Service Unavailable")) PNone PNone sys0
  = (Raised (HTTPError 503 "Service Unavailable"),
     {| storage := ∅; trace := [EvUrlopen sent_request] |}).
Proof. reflexivity. Qed.

(** ** What the handler sends *)

Lemma sent_request_data :
  data sent_request = Some (encode_utf8 "name=&password=&id=").
Proof. reflexivity. Qed.

Lemma sent_request_headers :
  headers sent_request = {[ "Content-type" := "application/x-www-form-urlencoded" ]}.
Proof. reflexivity. Qed.

(** Every run issues the request first and nothing before it. *)
Lemma invoke_http_requests env event context s :
  http_requests (new_events s (invoke env event context s).2) = [sent_request].
Proof. paths; events; reflexivity. Qed.

(** The trace only grows. *)
Lemma invoke_trace env event context s :
  trace (invoke env event context s).2
  = trace s ++ new_events s (invoke env event context s).2.
Proof. paths; events; cbn [trace emit store snd]; by rewrite <- ?app_assoc. Qed.

(** C1. Whatever bytes B the endpoint returns as the response body, every
    storage write the handler issues carries exactly B as its body, and when
    S3 takes the write the object stored under the fixed key has body B and
    the handler returns; B is arbitrary, the empty sequence included. *)
Theorem pass_through env event context s (B : bytes) :
  net_urlopen env sent_request = inr (ReadsAll B) →
  let run := invoke env event context s in
  Forall (λ args, Body args = B) (storage_writes (new_events s run.2)) ∧
  (boto3_client_error env "s3" = None →
   s3_put_error env (sent_put B) = None →
   is_Some (returned run.1) ∧
   storage_writes (new_events s run.2) = [sent_put B] ∧
   obj_body <$> storage run.2 !! target = Some B).
Proof.
  intros Hup run. subst run. rewrite invoke_paths, Hup. split.
  - destruct (boto3_client_error env "s3");
      [| destruct (s3_put_error env (sent_put B));
         [destruct (s3_put_applied env (sent_put B)) |]];
      events; repeat constructor.
  - intros -> ->. events. split; [by eexists |]. split; [done |].
    unfold target. by rewrite lookup_insert_eq.
Qed.

Lemma pass_through_witness :
  net_urlopen (env_ok []) sent_request = inr (ReadsAll []) ∧
  let run := invoke (env_ok []) PNone PNone sys0 in
  storage_writes (new_events sys0 run.2) = [sent_put []] ∧
  obj_body <$> storage run.2 !! target = Some [].
Proof.
  split; [reflexivity |].
  exact (proj2 (proj2 (pass_through (env_ok []) PNone PNone sys0 [] eq_refl)
                  eq_refl eq_refl)).
Defined.

(** C2. Every invocation sends exactly one HTTP request; it is a POST to
    https://www.autocaris.cz/downloadcontent/cars.php, it carries the header
    Content-Type: application/x-www-form-urlencoded (field names compared
    without case, as HTTP does: urllib stores the name as Content-type), and
    its body is the UTF-8 bytes of name=&password=&id=. *)
Theorem request_shape env event context s :
  ∃ req,
    http_requests (new_events s (invoke env event context s).2) = [req] ∧
    get_method req = "POST" ∧
    full_url req = "https://www.autocaris.cz/downloadcontent/cars.php" ∧
    carries_header req "Content-Type" "application/x-www-form-urlencoded" ∧
    data req = Some (encode_utf8 "name=&password=&id=").
Proof.
  exists sent_request. split; [apply invoke_http_requests |].
  repeat split. exists "Content-type". split; reflexivity.
Qed.

(** C3. Whatever the event, the context and the answers of the world, every
    storage write of an invocation targets bucket autocaris-data, key
    inzeraty/inzeraty_usti.xml, with content type application/xml, and the
    store gains no entry under any other bucket or key. *)
Theorem fixed_destination env event context s :
  let run := invoke env event context s in
  Forall (λ args,
            Bucket args = "autocaris-data" ∧
            Key args = "inzeraty/inzeraty_usti.xml" ∧
            ContentType args = "application/xml")
         (storage_writes (new_events s run.2)) ∧
  dom (storage run.2) ⊆ dom (storage s) ∪ {[ ("autocaris-data", "inzeraty/inzeraty_usti.xml") ]}.
Proof.
  intros run. subst run. paths; events; (split; [repeat constructor |]);
    try apply union_subseteq_l.
  all: rewrite dom_insert_L; apply union_least;
    [apply union_subseteq_r | apply union_subseteq_l].
Qed.

(** ** Failures *)



(** A failed read of the response and a failed client construction go the
    same way: the error is raised and nothing is written. *)
Lemma failure_before_write env event context s :
  let run := invoke env event context s in
  (∀ e, net_urlopen env sent_request = inr (ReadFails e) →
        run.1 = Raised e ∧ storage_writes (new_events s run.2) = [] ∧
        storage run.2 = storage s) ∧
  (∀ B e, net_urlopen env sent_request = inr (ReadsAll B) →
          boto3_client_error env "s3" = Some e →
          run.1 = Raised e ∧ storage_writes (new_events s run.2) = [] ∧
          storage run.2 = storage s).
Proof.
  intros run. subst run. rewrite invoke_paths. split.
  - intros e ->. by events.
  - intros B e -> ->. by events.
Qed.

(** ** The result *)

(** A run that returns went down the one successful path. *)
Lemma returned_success env event context s r :
  (invoke env event context s).1 = Returned r → r = success_result.
Proof. paths; cbn [fst]; congruence. Qed.

(** C5. When the handler returns, the status field of the result is 200
    and its message contains the bucket name autocaris-data and the key
    inzeraty/inzeraty_usti.xml. *)
Theorem result_shape env event context s r :
  (invoke env event context s).1 = Returned r →
  r !! "statusCode" = Some (PInt 200) ∧
  ∃ msg, r !! "body" = Some (PStr msg) ∧
         contains msg "autocaris-data" = true ∧
         contains msg "inzeraty/inzeraty_usti.xml" = true.
Proof.
  intros Hr. apply returned_success in Hr. subst r.
  split; [reflexivity |].
  eexists. split; [reflexivity |]. split; reflexivity.
Qed.

Lemma result_shape_witness :
  (invoke (env_ok feed1) PNone PNone sys0).1 = Returned success_result ∧
  success_result !! "statusCode" = Some (PInt 200).
Proof.
  split; [reflexivity |].
  exact (proj1 (result_shape (env_ok feed1) PNone PNone sys0 success_result eq_refl)).
Defined.

(** C10. On every successful invocation the result has exactly the keys
    statusCode and body, statusCode is the integer 200 and body is the
    constant message naming the S3 location: the same mapping whatever the
    payload was. *)
Theorem result_constant env event context s r :
  (invoke env event context s).1 = Returned r →
  r = {[ "statusCode" := PInt 200;
         "body" := PStr "XML úspěšně uložen do s3://autocaris-data/inzeraty/inzeraty_usti.xml" ]} ∧
  dom r = {[ "statusCode"; "body" ]} ∧
  r !! "statusCode" = Some (PInt 200) ∧
  r !! "body" = Some (PStr "XML úspěšně uložen do s3://autocaris-data/inzeraty/inzeraty_usti.xml").
Proof.
  intros Hr. apply returned_success in Hr. subst r.
  split; [reflexivity |]. split; [| by split].
  unfold success_result. rewrite dom_insert_L, dom_singleton_L. reflexivity.
Qed.

Lemma result_constant_witness :
  (invoke (env_ok feed2) (PStr "tick") PNone sys0).1 = Returned success_result ∧
  dom success_result = ({[ "statusCode"; "body" ]} : gset string).
Proof.
  split; [reflexivity |].
  exact (proj1 (proj2 (result_constant (env_ok feed2) (PStr "tick") PNone sys0
                         success_result eq_refl))).
Defined.

(** ** Independence from the invocation input *)

(** A run is decided by the starting state and by the answers of the
    world to the request, to the client construction and to the write. *)
Lemma invoke_depends_on_answers env1 env2 ev1 ctx1 ev2 ctx2 s :
  net_urlopen env1 sent_request = net_urlopen env2 sent_request →
  boto3_client_error env1 "s3" = boto3_client_error env2 "s3" →
  (∀ args, s3_put_error env1 args = s3_put_error env2 args) →
  (∀ args, s3_put_applied env1 args = s3_put_applied env2 args) →
  invoke env1 ev1 ctx1 s = invoke env2 ev2 ctx2 s.
Proof.
  intros Hnet Hcl Hput Happ. rewrite !invoke_paths, Hnet, Hcl.
  destruct (net_urlopen env2 sent_request) as [e | [B | e]]; try reflexivity.
  by rewrite Hput, Happ.
Qed.

(** C6. Two invocations that start from the same state and get the same
    answers from the world, and differ only in event and context, have the
    same result, the same trace (hence the same request sent) and the same
    store (hence the same object written). *)
Theorem event_context_unused env s (event1 context1 event2 context2 : pyval) :
  invoke env event1 context1 s = invoke env event2 context2 s.
Proof. by apply invoke_depends_on_answers. Qed.

(** ** Successive invocations *)

Lemma answers_storage env event context s B :
  answers env B →
  storage (invoke env event context s).2
  = <[target := mkObject B "application/xml"]> (storage s).
Proof. intros (Hnet & Hcl & Hput). by rewrite invoke_paths, Hnet, Hcl, Hput. Qed.

(** C7. After two successful invocations in a row, with upstream bodies B1
    then B2, the object under the fixed key has body B2 and the store is the
    initial one with that single object replaced: nothing of B1 is left. *)
Theorem last_write_wins env1 env2 ev1 ctx1 ev2 ctx2 s (B1 B2 : bytes) :
  answers env1 B1 →
  answers env2 B2 →
  let s1 := (invoke env1 ev1 ctx1 s).2 in
  let s2 := (invoke env2 ev2 ctx2 s1).2 in
  storage s1 !! target = Some (mkObject B1 "application/xml") ∧
  storage s2 !! target = Some (mkObject B2 "application/xml") ∧
  storage s2 = <[target := mkObject B2 "application/xml"]> (storage s).
Proof.
  intros H1 H2 s1 s2. subst s2 s1.
  rewrite (answers_storage env2 _ _ _ B2 H2), (answers_storage env1 _ _ _ B1 H1).
  rewrite insert_insert_eq, !lookup_insert_eq. done.
Qed.

Lemma answers_env_ok (B : bytes) : answers (env_ok B) B.
Proof. repeat split. Defined.

Lemma last_write_wins_witness :
  answers (env_ok feed1) feed1 ∧ answers (env_ok feed2) feed2 ∧
  storage (invoke (env_ok feed2) PNone PNone
             (invoke (env_ok feed1) PNone PNone sys0).2).2 !! target
  = Some (mkObject feed2 "application/xml").
Proof.
  split; [apply answers_env_ok |]. split; [apply answers_env_ok |].
  exact (proj1 (proj2 (last_write_wins (env_ok feed1) (env_ok feed2)
                         PNone PNone PNone PNone sys0 feed1 feed2
                         (answers_env_ok feed1) (answers_env_ok feed2)))).
Defined.

(** ** Effects and what they leave alone *)

(** C8, as the claim states it, fails: an invocation whose upstream call
    raises sends its request and performs no storage write. *)
Lemma two_effects_every_invocation_fails :
  ¬ (∀ env event context s,
       let evs := new_events s (invoke env event context s).2 in
       length (http_requests evs) = 1%nat ∧ length (storage_writes evs) = 1%nat).
Proof.
  intros H.
  destruct (H (env_upstream_down (URLError "timed out")) PNone PNone sys0) as [_ Hw].
  vm_compute in Hw. discriminate Hw.
Qed.

(** C8, amended. Every invocation sends exactly one HTTP request and issues
    at most one storage write: exactly one when it returns, none when the
    fetch fails (the request or the read of the response raises).  It does
    nothing else: it only extends the trace and it changes no entry of the
    store other than the one under the fixed bucket and key. *)
Theorem effects_frame env event context s :
  let run := invoke env event context s in
  let evs := new_events s run.2 in
  trace run.2 = trace s ++ evs ∧
  length (http_requests evs) = 1%nat ∧
  (length (storage_writes evs) ≤ 1)%nat ∧
  (is_Some (returned run.1) → length (storage_writes evs) = 1%nat) ∧
  ((∀ B, net_urlopen env sent_request ≠ inr (ReadsAll B)) →
   storage_writes evs = []) ∧
  (∀ k, k ≠ target → storage run.2 !! k = storage s !! k).
Proof.
  intros run evs. subst evs run.
  split; [apply invoke_trace |].
  paths; events; repeat split; try done; try (simpl; lia);
    try (by intros [? ?]);
    try (by intros Hfail; destruct (Hfail _ eq_refl)).
  all: intros k Hk; by rewrite lookup_insert_ne.
Qed.

Lemma effects_frame_witness :
  let s := {| storage := {[ ("autocaris-data", "other.xml") := mkObject feed2 "text/xml" ]};
              trace := [] |} in
  let run := invoke (env_ok feed1) PNone PNone s in
  let down := invoke (env_upstream_down (URLError "timed out")) PNone PNone s in
  length (storage_writes (trace run.2)) = 1%nat ∧
  storage run.2 !! ("autocaris-data", "other.xml") = Some (mkObject feed2 "text/xml") ∧
  storage_writes (trace down.2) = [].
Proof.
  intros s.
  destruct (effects_frame (env_ok feed1) PNone PNone s) as (_ & _ & _ & Hret & _ & Hframe).
  destruct (effects_frame (env_upstream_down (URLError "timed out")) PNone PNone s)
    as (_ & _ & _ & _ & Hdown & _).
  split; [| split].
  - exact (Hret (ex_intro _ success_result eq_refl)).
  - exact (Hframe ("autocaris-data", "other.xml") ltac:(discriminate)).
  - exact (Hdown (λ B (H : inl (URLError "timed out") = inr (ReadsAll B)),
                    ltac:(discriminate H))).
Defined.

(** ** Order *)

(** C9. In every invocation a storage write comes after the request and
    after the read that delivered the whole response body, which is the body
    it writes; when the handler returns, the write is the last thing it did
    and its object is in the store. *)
Theorem strict_order env event context s :
  let run := invoke env event context s in
  let evs := new_events s run.2 in
  (∀ i args, evs !! i = Some (EvPutObject args) →
     net_urlopen env sent_request = inr (ReadsAll (Body args)) ∧
     ∃ j k, (j < k < i)%nat ∧
            evs !! j = Some (EvUrlopen sent_request) ∧
            evs !! k = Some (EvRead (Body args))) ∧
  (∀ r, run.1 = Returned r →
     ∃ args, last evs = Some (EvPutObject args) ∧
             storage run.2 !! (Bucket args, Key args)
             = Some (mkObject (Body args) (ContentType args))).
Proof.
  intros run evs. subst evs run. rewrite invoke_paths.
  destruct (net_urlopen env sent_request) as [e | [B | e]] eqn:Hnet;
    [ | destruct (boto3_client_error env "s3") as [e |];
        [ | destruct (s3_put_error env (sent_put B)) as [e |];
            [ destruct (s3_put_applied env (sent_put B)) | ] ] | ];
    events; (split; [| try done]).
  all: try (intros [| [| [| [| i]]]] args Hi; simplify_eq/=; fail).
  - intros [| [| [| [| i]]]] args Hi; simplify_eq/=.
    split; [done |]. exists 0%nat, 1%nat. repeat split; lia.
  - intros [| [| [| [| i]]]] args Hi; simplify_eq/=.
    split; [done |]. exists 0%nat, 1%nat. repeat split; lia.
  - intros [| [| [| [| i]]]] args Hi; simplify_eq/=.
    split; [done |]. exists 0%nat, 1%nat. repeat split; lia.
  - intros r _. exists (sent_put B). split; [done |]. apply lookup_insert_eq.
Qed.

Lemma strict_order_witness :
  let evs := new_events sys0 (invoke (env_ok feed1) PNone PNone sys0).2 in
  evs !! 3%nat = Some (EvPutObject (sent_put feed1)) ∧
  ∃ j k, (j < k < 3)%nat ∧
         evs !! j = Some (EvUrlopen sent_request) ∧
         evs !! k = Some (EvRead feed1).
Proof.
  split; [reflexivity |].
  exact (proj2 (proj1 (strict_order (env_ok feed1) PNone PNone sys0)
                  3%nat (sent_put feed1) eq_refl)).
Defined.

(** ** Failures between the request and the write *)

(** X1. When reading the response raises, the handler raises that error;
    the response is closed all the same, nothing is written and the store
    is left as it was. *)
Theorem read_failure_propagates env event context s e :
  net_urlopen env sent_request = inr (ReadFails e) →
  let run := invoke env event context s in
  run.1 = Raised e ∧
  new_events s run.2 = [EvUrlopen sent_request; EvClose] ∧
  storage run.2 = storage s.
Proof. intros Hnet run. subst run. rewrite invoke_paths, Hnet. by events. Qed.

Lemma read_failure_propagates_witness :
  let env := {| net_urlopen := λ _, inr (ReadFails (IncompleteRead feed1));
                boto3_client_error := λ _, None;
                s3_put_error := λ _, None;
                s3_put_applied := λ _, false |} in
  (invoke env PNone PNone sys0).1 = Raised (IncompleteRead feed1) ∧
  trace (invoke env PNone PNone sys0).2 = [EvUrlopen sent_request; EvClose].
Proof.
  intros env.
  destruct (read_failure_propagates env PNone PNone sys0 (IncompleteRead feed1) eq_refl)
    as (Hr & He & _).
  split; [exact Hr | exact He].
Defined.

(** X2. The S3 client is made after the fetch: when making it raises, the
    handler raises that error with the request already sent and the whole
    body read, and nothing is written. *)
Theorem client_failure_after_fetch env event context s B e :
  net_urlopen env sent_request = inr (ReadsAll B) →
  boto3_client_error env "s3" = Some e →
  let run := invoke env event context s in
  run.1 = Raised e ∧
  new_events s run.2 = [EvUrlopen sent_request; EvRead B; EvClose] ∧
  storage run.2 = storage s.
Proof. intros Hnet Hcl run. subst run. rewrite invoke_paths, Hnet, Hcl. by events. Qed.

Lemma client_failure_after_fetch_witness :
  let env := {| net_urlopen := λ _, inr (ReadsAll feed1);
                boto3_client_error := λ _, Some (BotoCoreError "no region");
                s3_put_error := λ _, None;
                s3_put_applied := λ _, false |} in
  (invoke env PNone PNone sys0).1 = Raised (BotoCoreError "no region") ∧
  trace (invoke env PNone PNone sys0).2
  = [EvUrlopen sent_request; EvRead feed1; EvClose].
Proof.
  intros env.
  destruct (client_failure_after_fetch env PNone PNone sys0 feed1
              (BotoCoreError "no region") eq_refl eq_refl) as (Hr & He & _).
  split; [exact Hr | exact He].
Defined.

(** X3. The response is closed exactly once when the endpoint gave one and
    never otherwise, and it is closed before any storage write is issued. *)
Theorem response_closed_before_write env event context s :
  let evs := new_events s (invoke env event context s).2 in
  closes evs = (if net_urlopen env sent_request is inr _ then 1 else 0)%nat ∧
  ∀ i args, evs !! i = Some (EvPutObject args) →
            ∃ j, (j < i)%nat ∧ evs !! j = Some EvClose.
Proof.
  intros evs. subst evs. paths; events; (split; [reflexivity |]).
  all: intros [| [| [| [| i]]]] args Hi; simplify_eq/=.
  all: exists 2%nat; split; [lia | reflexivity].
Qed.

Lemma response_closed_before_write_witness :
  let evs := new_events sys0 (invoke (env_ok feed1) PNone PNone sys0).2 in
  evs !! 3%nat = Some (EvPutObject (sent_put feed1)) ∧
  ∃ j, (j < 3)%nat ∧ evs !! j = Some EvClose.
Proof.
  split; [reflexivity |].
  exact (proj2 (response_closed_before_write (env_ok feed1) PNone PNone sys0)
           3%nat (sent_put feed1) eq_refl).
Defined.

(** ** When the handler returns and what it raises *)

Lemma success_body_answers env B : success_body env = Some B ↔ answers env B.
Proof.
  unfold success_body, answers.
  destruct (net_urlopen env sent_request) as [e | [B' | e]];
    [ | destruct (boto3_client_error env "s3") as [e |];
        [ | destruct (s3_put_error env (sent_put B')) as [e |] eqn:Hput ] | ];
    split.
  all: try discriminate.
  all: try (intros (? & ? & ?); simplify_eq; fail).
  - intros ?. by simplify_eq.
  - intros (? & _ & _). by simplify_eq.
Qed.

(** The store after a run, read off the answers of the world. *)
Lemma invoke_storage env event context s :
  storage (invoke env event context s).2
  = match stored_body env with
    | Some B => <[target := mkObject B "application/xml"]> (storage s)
    | None => storage s
    end.
Proof.
  rewrite invoke_paths. unfold stored_body.
  destruct (net_urlopen env sent_request) as [e | [B | e]]; try reflexivity.
  destruct (boto3_client_error env "s3"); [reflexivity |].
  destruct (s3_put_error env (sent_put B)); [| reflexivity].
  destruct (s3_put_applied env (sent_put B)); reflexivity.
Qed.

(** A write that returned was applied. *)
Lemma success_body_stored env B : success_body env = Some B → stored_body env = Some B.
Proof.
  unfold success_body, stored_body.
  destruct (net_urlopen env sent_request) as [e | [B' | e]]; try done.
  destruct (boto3_client_error env "s3"); [done |].
  by destruct (s3_put_error env (sent_put B')).
Qed.

(** A run that issued no write left the store as it was. *)
Lemma no_write_no_change env event context s :
  storage_writes (new_events s (invoke env event context s).2) = [] →
  storage (invoke env event context s).2 = storage s.
Proof. paths; events; done. Qed.

(** What a run returns, read off the answers of the world. *)
Lemma invoke_returned env event context s :
  returned (invoke env event context s).1
  = match success_body env with
    | Some _ => Some success_result
    | None => None
    end.
Proof.
  rewrite invoke_paths. unfold success_body.
  destruct (net_urlopen env sent_request) as [e | [B | e]]; try reflexivity.
  destruct (boto3_client_error env "s3"); [reflexivity |].
  destruct (s3_put_error env (sent_put B)); reflexivity.
Qed.

(** X4. The handler returns exactly when the endpoint gives a body that can
    be read, the client is made and S3 takes the write of that body. *)
Theorem returns_iff_world_answers env event context s :
  is_Some (returned (invoke env event context s).1) ↔ ∃ B, answers env B.
Proof.
  rewrite invoke_paths. unfold answers.
  destruct (net_urlopen env sent_request) as [e | [B | e]];
    [ | destruct (boto3_client_error env "s3") as [e |];
        [ | destruct (s3_put_error env (sent_put B)) as [e |] eqn:Hput ] | ];
    cbn [fst returned]; split.
  all: try (intros [? ?]; discriminate).
  all: try (intros (B' & ? & ? & ?); simplify_eq; fail).
  - intros _. by exists B.
  - intros _. by eexists.
Qed.

(** X5. The handler raises no error of its own: an error it raises is the
    one the request, the read, the client construction or the write gave. *)
Theorem raised_error_origin env event context s e :
  (invoke env event context s).1 = Raised e →
  net_urlopen env sent_request = inl e ∨
  net_urlopen env sent_request = inr (ReadFails e) ∨
  ∃ B, net_urlopen env sent_request = inr (ReadsAll B) ∧
       (boto3_client_error env "s3" = Some e ∨
        boto3_client_error env "s3" = None ∧ s3_put_error env (sent_put B) = Some e).
Proof.
  rewrite invoke_paths.
  destruct (net_urlopen env sent_request) as [e' | [B | e']];
    [ | destruct (boto3_client_error env "s3") as [e' |];
        [ | destruct (s3_put_error env (sent_put B)) as [e' |] eqn:Hput ] | ];
    cbn [fst]; intros He; simplify_eq.
  - by left.
  - right; right. exists B. split; [done |]. by left.
  - right; right. exists B. split; [done |]. right. by split.
  - right. by left.
Qed.

Lemma raised_error_origin_witness :
  (invoke (env_put_denied feed1 (ClientError "AccessDenied")) PNone PNone sys0).1
    = Raised (ClientError "AccessDenied") ∧
  (net_urlopen (env_put_denied feed1 (ClientError "AccessDenied")) sent_request
     = inl (ClientError "AccessDenied") ∨
   net_urlopen (env_put_denied feed1 (ClientError "AccessDenied")) sent_request
     = inr (ReadFails (ClientError "AccessDenied")) ∨
   ∃ B, net_urlopen (env_put_denied feed1 (ClientError "AccessDenied")) sent_request
          = inr (ReadsAll B) ∧
        (boto3_client_error (env_put_denied feed1 (ClientError "AccessDenied")) "s3"
           = Some (ClientError "AccessDenied") ∨
         boto3_client_error (env_put_denied feed1 (ClientError "AccessDenied")) "s3" = None ∧
         s3_put_error (env_put_denied feed1 (ClientError "AccessDenied")) (sent_put B)
           = Some (ClientError "AccessDenied"))).
Proof.
  split; [reflexivity |].
  exact (raised_error_origin (env_put_denied feed1 (ClientError "AccessDenied"))
           PNone PNone sys0 (ClientError "AccessDenied") eq_refl).
Defined.

(** ** Invocations one after another *)

(** X6. A successful invocation wipes out what any earlier invocation did
    to the store, whatever that one's outcome: the store is the same as if
    the successful one had run alone. *)
Theorem success_erases_history env1 env2 ev1 ctx1 ev2 ctx2 s (B : bytes) :
  answers env2 B →
  storage (invoke env2 ev2 ctx2 (invoke env1 ev1 ctx1 s).2).2
  = storage (invoke env2 ev2 ctx2 s).2.
Proof.
  intros H2%success_body_answers%success_body_stored.
  rewrite !invoke_storage, H2.
  destruct (stored_body env1); [apply insert_insert_eq | reflexivity].
Qed.

Lemma success_erases_history_witness :
  answers (env_ok feed2) feed2 ∧
  storage (invoke (env_ok feed2) PNone PNone
             (invoke (env_put_denied feed1 (ClientError "AccessDenied"))
                PNone PNone sys0).2).2
  = storage (invoke (env_ok feed2) PNone PNone sys0).2.
Proof.
  split; [apply answers_env_ok |].
  exact (success_erases_history (env_put_denied feed1 (ClientError "AccessDenied"))
           (env_ok feed2) PNone PNone PNone PNone sys0 feed2 (answers_env_ok feed2)).
Defined.

(** X7. An invocation that fails before it issues the storage write (the
    fetch or the client construction raised) leaves in place the object a
    previous successful invocation stored. *)
Theorem failure_keeps_previous_object env1 env2 ev1 ctx1 ev2 ctx2 s (B1 : bytes) :
  answers env1 B1 →
  storage_writes
    (new_events (invoke env1 ev1 ctx1 s).2
       (invoke env2 ev2 ctx2 (invoke env1 ev1 ctx1 s).2).2) = [] →
  storage (invoke env2 ev2 ctx2 (invoke env1 ev1 ctx1 s).2).2 !! target
  = Some (mkObject B1 "application/xml").
Proof.
  intros H1%success_body_answers%success_body_stored Hnone.
  rewrite (no_write_no_change _ _ _ _ Hnone), invoke_storage, H1.
  apply lookup_insert_eq.
Qed.

Lemma failure_keeps_previous_object_witness :
  answers (env_ok feed1) feed1 ∧
  storage_writes
    (new_events (invoke (env_ok feed1) PNone PNone sys0).2
       (invoke (env_upstream_down (URLError "timed out")) PNone PNone
          (invoke (env_ok feed1) PNone PNone sys0).2).2) = [] ∧
  storage (invoke (env_upstream_down (URLError "timed out")) PNone PNone
             (invoke (env_ok feed1) PNone PNone sys0).2).2 !! target
  = Some (mkObject feed1 "application/xml").
Proof.
  split; [apply answers_env_ok |]. split; [reflexivity |].
  exact (failure_keeps_previous_object (env_ok feed1)
           (env_upstream_down (URLError "timed out"))
           PNone PNone PNone PNone sys0 feed1 (answers_env_ok feed1) eq_refl).
Defined.

(** Once the write was issued and raised, the bucket may hold either
    object. *)
Example lost_answer_replaces_object :
  storage (invoke (env_put_lost feed2 (ClientError "RequestTimeout")) PNone PNone
             (invoke (env_ok feed1) PNone PNone sys0).2).2 !! target
  = Some (mkObject feed2 "application/xml").
Proof. reflexivity. Qed.

(** X8. The handler never deletes an object: every bucket and key present
    before a run is present after it, and after a run that returned the
    fixed key is present. *)
Theorem store_keys_after_run env event context s :
  let run := invoke env event context s in
  dom (storage s) ⊆ dom (storage run.2) ∧
  (is_Some (returned run.1) → target ∈ dom (storage run.2)).
Proof.
  intros run. subst run. rewrite invoke_returned, invoke_storage. split.
  - destruct (stored_body env); [| done].
    rewrite dom_insert_L. apply union_subseteq_r.
  - destruct (success_body env) as [B |] eqn:Hb; [| by intros [? ?]].
    intros _. rewrite (success_body_stored _ _ Hb), dom_insert_L.
    apply elem_of_union_l, elem_of_singleton. reflexivity.
Qed.

Lemma store_keys_after_run_witness :
  let s := {| storage := {[ ("autocaris-data", "other.xml") := mkObject feed2 "text/xml" ]};
              trace := [] |} in
  let run := invoke (env_ok feed1) PNone PNone s in
  is_Some (returned run.1) ∧ target ∈ dom (storage run.2).
Proof.
  intros s run.
  assert (Hret : is_Some (returned run.1)) by (by exists success_result).
  split; [exact Hret |].
  exact (proj2 (store_keys_after_run (env_ok feed1) PNone PNone s) Hret).
Defined.

Lemma http_requests_app (l1 l2 : list effect) :
  http_requests (l1 ++ l2) = http_requests l1 ++ http_requests l2.
Proof.
  induction l1 as [| [req | body | | args] l1 IH]; cbn [app http_requests];
    by rewrite ?IH.
Qed.

Lemma invoke_seq_trace calls s :
  ∃ l, trace (invoke_seq calls s) = trace s ++ l ∧
       http_requests l = replicate (length calls) sent_request.
Proof.
  revert s. induction calls as [| [[env event] context] calls IH]; intros s.
  - exists []. split; [by rewrite app_nil_r | reflexivity].
  - cbn [invoke_seq]. destruct (IH (invoke env event context s).2) as (l & Ht & Hl).
    exists (new_events s (invoke env event context s).2 ++ l). split.
    + by rewrite Ht, invoke_trace, <- app_assoc.
    + by rewrite http_requests_app, invoke_http_requests, Hl.
Qed.

(** X9. Over any schedule of invocations the handler sends its request once
    per invocation: nothing is cached and no earlier failure or success
    makes a later invocation skip the fetch. *)
Theorem schedule_requests (calls : list (Env * pyval * pyval)) (s : Sys) :
  http_requests (new_events s (invoke_seq calls s))
  = replicate (length calls) sent_request.
Proof.
  destruct (invoke_seq_trace calls s) as (l & Ht & Hl).
  unfold new_events. by rewrite Ht, drop_app_length.
Qed.

(** X10. After any schedule of invocations the store is the initial one
    with the fixed key holding the body of the last invocation whose write
    S3 applied (the write returned, or it raised after S3 had stored the
    object), and it is the initial store when S3 applied none. *)
Theorem schedule_storage (calls : list (Env * pyval * pyval)) (s : Sys) :
  storage (invoke_seq calls s)
  = match last_stored calls with
    | Some B => <[target := mkObject B "application/xml"]> (storage s)
    | None => storage s
    end.
Proof.
  revert s. induction calls as [| [[env event] context] calls IH]; intros s.
  - reflexivity.
  - cbn [invoke_seq last_stored]. rewrite IH, invoke_storage.
    destruct (last_stored calls) as [B |]; [| reflexivity].
    destruct (stored_body env); [apply insert_insert_eq | reflexivity].
Qed.

Example schedule_three :
  storage (invoke_seq [(env_ok feed1, PNone, PNone);
                       (env_ok feed2, PNone, PNone);
                       (env_upstream_down (URLError "timed out"), PNone, PNone)] sys0)
  = {[ target := mkObject feed2 "application/xml" ]}.
Proof. reflexivity. Qed.

Example schedule_lost_answer :
  storage (invoke_seq [(env_ok feed1, PNone, PNone);
                       (env_put_lost feed2 (ClientError "RequestTimeout"), PNone, PNone);
                       (env_put_denied feed1 (ClientError "AccessDenied"), PNone, PNone)] sys0)
  = {[ target := mkObject feed2 "application/xml" ]}.
Proof. reflexivity. Qed.

(** ** The form encoding *)

Import urllib_parse.

Lemma append_nil_l (t : string) : "" +:+ t = t.
Proof. reflexivity. Qed.

Lemma quote_plus_cons (c : ascii) (rest : string) :
  quote_plus (String c rest)
  = (if always_safe c then String c ""
     else if Ascii.eqb c " " then "+"
     else percent c) +:+ quote_plus rest.
Proof. reflexivity. Qed.

Lemma all_chars_app P (s t : string) :
  all_chars P (s +:+ t) = all_chars P s && all_chars P t.
Proof.
  induction s as [| c s IH]; [reflexivity |].
  rewrite append_cons. cbn [all_chars]. by rewrite IH, andb_assoc.
Qed.

Lemma all_chars_impl (P Q : ascii → bool) (s : string) :
  (∀ c, P c = true → Q c = true) → all_chars P s = true → all_chars Q s = true.
Proof.
  intros HPQ. induction s as [| c s IH]; [done |].
  cbn [all_chars]. rewrite !andb_true_iff. intros [Hc Hs]. auto.
Qed.

Lemma percent_quoted (c : ascii) : all_chars quoted_char (percent c) = true.
Proof. destruct c as [[] [] [] [] [] [] [] []]; reflexivity. Qed.

Lemma percent_byte_percent (c : ascii) : percent_byte (percent c) = Some c.
Proof. destruct c as [[] [] [] [] [] [] [] []]; reflexivity. Qed.

Lemma quote_plus_quoted (s : string) : all_chars quoted_char (quote_plus s) = true.
Proof.
  induction s as [| c s IH]; [reflexivity |].
  rewrite quote_plus_cons, all_chars_app, IH, andb_true_r.
  destruct (always_safe c) eqn:Hsafe.
  - cbn [all_chars]. unfold quoted_char. by rewrite Hsafe.
  - destruct (Ascii.eqb c " "); [reflexivity | apply percent_quoted].
Qed.

Lemma join_all_chars P (sep : string) (l : list string) :
  all_chars P sep = true →
  Forall (λ x, all_chars P x = true) l →
  all_chars P (join sep l) = true.
Proof.
  intros Hsep. induction 1 as [| x l Hx Hl IH]; [reflexivity |].
  destruct l as [| y l]; [exact Hx |].
  change (join sep (x :: y :: l)) with (x +:+ sep +:+ join sep (y :: l)).
  by rewrite !all_chars_app, Hx, Hsep, IH.
Qed.

(** X11. Whatever the fields are, the form body [urlencode] builds is made
    of unreserved characters (letters, digits, [_.-~]) and of [+ % = &]
    only. *)
Theorem urlencode_alphabet (query : list (string * string)) :
  all_chars form_char (urlencode query) = true.
Proof.
  assert (Hq : ∀ s, all_chars form_char (quote_plus s) = true).
  { intros s. apply (all_chars_impl quoted_char); [| apply quote_plus_quoted].
    intros c. unfold quoted_char, form_char.
    rewrite !orb_true_iff. intuition. }
  unfold urlencode. apply join_all_chars; [reflexivity |].
  apply Forall_forall. intros x [[k v] [-> _]]%list_elem_of_fmap.
  by rewrite !all_chars_app, !Hq.
Qed.

(** X12. A string of unreserved characters is its own encoding. *)
Theorem quote_plus_unreserved (s : string) :
  all_chars always_safe s = true → quote_plus s = s.
Proof.
  induction s as [| c s IH]; [reflexivity |].
  cbn [all_chars]. rewrite andb_true_iff. intros [Hc Hs].
  by rewrite quote_plus_cons, Hc, IH, append_cons, append_nil_l.
Qed.

Lemma quote_plus_unreserved_witness :
  all_chars always_safe "inzeraty_usti-2.xml~" = true ∧
  quote_plus "inzeraty_usti-2.xml~" = "inzeraty_usti-2.xml~".
Proof.
  split; [reflexivity |].
  exact (quote_plus_unreserved "inzeraty_usti-2.xml~" eq_refl).
Defined.

(** ** The form encoding loses nothing *)

Lemma always_safe_not_plus_percent (c : ascii) :
  always_safe c = true → c ≠ "+"%char ∧ c ≠ "%"%char.
Proof. intros Hc. split; intros ->; discriminate Hc. Qed.

(** The encodings of two characters never overlap at the head of a string. *)
Lemma quote_head_inj (c1 c2 : ascii) (t1 t2 : string) :
  (if always_safe c1 then String c1 ""
   else if Ascii.eqb c1 " " then "+" else percent c1) +:+ t1
  = (if always_safe c2 then String c2 ""
     else if Ascii.eqb c2 " " then "+" else percent c2) +:+ t2 →
  c1 = c2 ∧ t1 = t2.
Proof.
  destruct (always_safe c1) eqn:H1, (always_safe c2) eqn:H2.
  - rewrite !append_cons, !append_nil_l. intros [= -> ->]. done.
  - destruct (always_safe_not_plus_percent c1 H1) as [Hp Hq].
    destruct (Ascii.eqb c2 " "); unfold percent;
      rewrite !append_cons, !append_nil_l; intros [= ? ?]; done.
  - destruct (always_safe_not_plus_percent c2 H2) as [Hp Hq].
    destruct (Ascii.eqb c1 " "); unfold percent;
      rewrite !append_cons, !append_nil_l; intros [= ? ?]; done.
  - destruct (Ascii.eqb c1 " ") eqn:E1, (Ascii.eqb c2 " ") eqn:E2.
    + apply Ascii.eqb_eq in E1, E2. rewrite !append_cons, !append_nil_l.
      intros [= ->]. by subst.
    + unfold percent. rewrite !append_cons, !append_nil_l. intros [= ?].
    + unfold percent. rewrite !append_cons, !append_nil_l. intros [= ?].
    + intros H. assert (percent c1 = percent c2 ∧ t1 = t2) as [Hp ->].
      { unfold percent in *. rewrite !append_cons, !append_nil_l in H.
        injection H as -> -> ->. done. }
      split; [| done].
      pose proof (percent_byte_percent c1) as Hb. rewrite Hp, percent_byte_percent in Hb.
      congruence.
Qed.

Lemma quote_plus_injective (s1 s2 : string) :
  quote_plus s1 = quote_plus s2 → s1 = s2.
Proof.
  revert s2. induction s1 as [| c1 s1 IH]; intros [| c2 s2].
  - done.
  - rewrite quote_plus_cons. cbn [quote_plus].
    destruct (always_safe c2); [| destruct (Ascii.eqb c2 " ")];
      unfold percent; rewrite !append_cons; discriminate.
  - rewrite quote_plus_cons. cbn [quote_plus].
    destruct (always_safe c1); [| destruct (Ascii.eqb c1 " ")];
      unfold percent; rewrite !append_cons; discriminate.
  - rewrite !quote_plus_cons. intros [-> Ht]%quote_head_inj.
    by rewrite (IH s2 Ht).
Qed.

(** X13. [quote_plus] is injective: two strings have the same encoding
    exactly when they are the same string. *)
Theorem quote_plus_inj (s1 s2 : string) :
  quote_plus s1 = quote_plus s2 ↔ s1 = s2.
Proof. split; [apply quote_plus_injective | by intros ->]. Qed.

(** Strings free of one character split around it in one way only. *)
Lemma lacks_app x (s t : string) : lacks x (s +:+ t) ↔ lacks x s ∧ lacks x t.
Proof. unfold lacks. by rewrite all_chars_app, andb_true_iff. Qed.

Lemma lacks_cons x c (s : string) : lacks x (String c s) ↔ c ≠ x ∧ lacks x s.
Proof.
  unfold lacks. cbn [all_chars].
  by rewrite andb_true_iff, negb_true_iff, Ascii.eqb_neq.
Qed.

Lemma lacks_sep_absurd x (a a' r' : string) :
  lacks x a → a = a' +:+ String x r' → False.
Proof.
  intros Ha ->. apply lacks_app in Ha as [_ Hx].
  apply lacks_cons in Hx as [Hx _]. done.
Qed.

Lemma split_at_sep x (a a' r r' : string) :
  lacks x a → lacks x a' →
  a +:+ String x r = a' +:+ String x r' → a = a' ∧ r = r'.
Proof.
  revert a'. induction a as [| c a IH]; intros [| c' a'] Ha Ha'.
  - rewrite !append_nil_l. by intros [= ->].
  - rewrite append_nil_l, append_cons. intros [= <- _].
    apply lacks_cons in Ha' as [? _]. done.
  - rewrite append_nil_l, append_cons. intros [= -> _].
    apply lacks_cons in Ha as [? _]. done.
  - rewrite !append_cons. intros [= -> H].
    apply lacks_cons in Ha as [_ Ha]. apply lacks_cons in Ha' as [_ Ha'].
    destruct (IH a' Ha Ha' H) as [-> ->]. done.
Qed.

Lemma quoted_lacks x (s : string) :
  quoted_char x = false → lacks x (quote_plus s).
Proof.
  intros Hx. apply (all_chars_impl quoted_char); [| apply quote_plus_quoted].
  intros c Hc. apply negb_true_iff, Ascii.eqb_neq. intros ->. congruence.
Qed.

Lemma form_item_inj kv kv' : form_item kv = form_item kv' → kv = kv'.
Proof.
  destruct kv as [k v], kv' as [k' v']. unfold form_item; cbn [fst snd].
  rewrite !(append_cons "=" ""), !append_nil_l.
  intros [Hk Hv]%split_at_sep; try (by apply quoted_lacks).
  by rewrite (quote_plus_injective _ _ Hk), (quote_plus_injective _ _ Hv).
Qed.

Lemma form_item_lacks_amp kv : lacks "&" (form_item kv).
Proof.
  unfold form_item. rewrite !lacks_app.
  split; [by apply quoted_lacks |]. split; [done | by apply quoted_lacks].
Qed.

Lemma form_item_nonempty kv : form_item kv ≠ "".
Proof.
  unfold form_item. destruct (quote_plus kv.1); [| by rewrite append_cons].
  by rewrite append_nil_l, (append_cons "=" "").
Qed.

Lemma join_items_inj (l l' : list (string * string)) :
  join "&" (map form_item l) = join "&" (map form_item l') → l = l'.
Proof.
  revert l'. induction l as [| x l IH]; intros [| x' l'].
  - done.
  - cbn [map join]. intros H. exfalso.
    destruct (map form_item l'); [by apply (form_item_nonempty x') |].
    destruct (form_item x') eqn:Hx; [by apply (form_item_nonempty x') |].
    by rewrite append_cons in H.
  - cbn [map join]. intros H. exfalso.
    destruct (map form_item l); [by apply (form_item_nonempty x) |].
    destruct (form_item x) eqn:Hx; [by apply (form_item_nonempty x) |].
    by rewrite append_cons in H.
  - destruct l as [| y l], l' as [| y' l'].
    + cbn [map join]. by intros ->%form_item_inj.
    + cbn [map join]. rewrite (append_cons "&" ""), append_nil_l. intros H.
      exfalso. exact (lacks_sep_absurd "&" _ _ _ (form_item_lacks_amp x) H).
    + cbn [map join]. rewrite (append_cons "&" ""), append_nil_l. intros H.
      exfalso. symmetry in H.
      exact (lacks_sep_absurd "&" _ _ _ (form_item_lacks_amp x') H).
    + change (join "&" (map form_item (x :: y :: l)))
        with (form_item x +:+ "&" +:+ join "&" (map form_item (y :: l))).
      change (join "&" (map form_item (x' :: y' :: l')))
        with (form_item x' +:+ "&" +:+ join "&" (map form_item (y' :: l'))).
      rewrite !(append_cons "&" ""), !append_nil_l.
      intros [Hx Hr]%split_at_sep; try apply form_item_lacks_amp.
      apply form_item_inj in Hx as ->. by rewrite (IH _ Hr).
Qed.

(** X14. [urlencode] is injective on field lists: the body determines every
    field name and value, in order, so no two different forms are sent as
    the same bytes. *)
Theorem urlencode_inj (q q' : list (string * string)) :
  urlencode q = urlencode q' → q = q'.
Proof. apply join_items_inj. Qed.

Lemma urlencode_inj_witness :
  urlencode [("name", "a&b"); ("id", "1=2")]
  = urlencode [("name", "a&b"); ("id", "1=2")] ∧
  [("name", "a&b"); ("id", "1=2")] = [("name", "a&b"); ("id", "1=2")].
Proof.
  split; [reflexivity |].
  exact (urlencode_inj [("name", "a&b"); ("id", "1=2")]
           [("name", "a&b"); ("id", "1=2")] eq_refl).
Defined.

Example urlencode_separators_escaped :
  urlencode [("a", "1&b=2")] = "a=1%26b%3D2" ∧
  urlencode [("a", "1"); ("b", "2")] = "a=1&b=2".
Proof. split; reflexivity. Qed.

(** ** Header names *)

Lemma lower_upper_ascii (c : ascii) : lower_ascii (upper_ascii c) = lower_ascii c.
Proof. destruct c as [[] [] [] [] [] [] [] []]; reflexivity. Qed.

Lemma upper_lower_ascii (c : ascii) : upper_ascii (lower_ascii c) = upper_ascii c.
Proof. destruct c as [[] [] [] [] [] [] [] []]; reflexivity. Qed.

Lemma lower_lower_ascii (c : ascii) : lower_ascii (lower_ascii c) = lower_ascii c.
Proof. destruct c as [[] [] [] [] [] [] [] []]; reflexivity. Qed.

Lemma lower_idemp (s : string) : lower (lower s) = lower s.
Proof.
  induction s as [| c s IH]; [reflexivity |].
  cbn [lower]. by rewrite lower_lower_ascii, IH.
Qed.

Lemma lower_capitalize (s : string) : lower (capitalize s) = lower s.
Proof.
  destruct s as [| c s]; [reflexivity |].
  cbn [capitalize lower]. by rewrite lower_upper_ascii, lower_idemp.
Qed.

Lemma capitalize_lower (s : string) : capitalize (lower s) = capitalize s.
Proof.
  destruct s as [| c s]; [reflexivity |].
  cbn [capitalize lower]. by rewrite upper_lower_ascii, lower_idemp.
Qed.

(** X15. After [add_header] with an ASCII name the request carries that
    header with that value, however the name was cased: the name is stored
    capitalized and header names match without case.  The name is ASCII
    because only there are [capitalize] and [lower] those of Python. *)
Theorem add_header_carries (key val : string) (req : Request) :
  all_chars is_ascii key = true →
  carries_header (add_header key val req) key val.
Proof.
  intros _. exists (capitalize key). split.
  - cbn [headers add_header]. apply lookup_insert_eq.
  - apply lower_capitalize.
Qed.

Lemma add_header_carries_witness :
  all_chars is_ascii "X-API-KEY" = true ∧
  carries_header (add_header "X-API-KEY" "k" sent_request) "X-API-KEY" "k".
Proof.
  split; [reflexivity |].
  exact (add_header_carries "X-API-KEY" "k" sent_request eq_refl).
Defined.

(** X16. Adding a header whose ASCII name differs only in case from one
    added before replaces it: the request is the one with the second header
    alone, so a request never holds two values for one name. *)
Theorem add_header_replaces (k1 k2 v1 v2 : string) (req : Request) :
  all_chars is_ascii k1 = true →
  all_chars is_ascii k2 = true →
  lower k1 = lower k2 →
  add_header k2 v2 (add_header k1 v1 req) = add_header k2 v2 req.
Proof.
  intros _ _ Hk. unfold add_header; cbn [full_url data headers].
  assert (capitalize k1 = capitalize k2) as ->.
  { by rewrite <- (capitalize_lower k1), Hk, capitalize_lower. }
  by rewrite insert_insert_eq.
Qed.

Lemma add_header_replaces_witness :
  lower "content-type" = lower "Content-Type" ∧
  add_header "content-type" "text/plain" sent_request
  = add_header "content-type" "text/plain"
      (Request_new (full_url sent_request) (data sent_request)).
Proof.
  split; [reflexivity |].
  exact (add_header_replaces "Content-Type" "content-type"
           "application/x-www-form-urlencoded" "text/plain"
           (Request_new (full_url sent_request) (data sent_request))
           eq_refl eq_refl eq_refl).
Defined.

(** ** Size of the encoding *)

Lemma length_append (s t : string) :
  String.length (s +:+ t) = (String.length s + String.length t)%nat.
Proof.
  induction s as [| c s IH]; [reflexivity |].
  rewrite append_cons. cbn [String.length]. by rewrite IH.
Qed.

Lemma encode_utf8_length (s : string) :
  length (encode_utf8 s) = String.length s.
Proof.
  induction s as [| c s IH]; [reflexivity |].
  cbn [String.length]. rewrite <- IH. reflexivity.
Qed.

(** X17. The encoding of a field has at least as many characters as the
    field has UTF-8 bytes and at most three times as many: every byte of
    the field becomes one character or one escape of three. *)
Theorem quote_plus_length (s : string) :
  (length (encode_utf8 s) ≤ String.length (quote_plus s)
   ≤ 3 * length (encode_utf8 s))%nat.
Proof.
  rewrite encode_utf8_length.
  induction s as [| c s IH]; [cbn; lia |].
  rewrite quote_plus_cons, length_append. cbn [String.length].
  destruct (always_safe c); [| destruct (Ascii.eqb c " ")];
    unfold percent; cbn [String.length]; lia.
Qed.

Example quote_plus_euro :
  quote_plus "€" = "%E2%82%AC" ∧ length (encode_utf8 "€") = 3%nat.
Proof. split; reflexivity. Qed.
